(** * lbsql: a load balancer over database/sql connectors

    A shallow embedding of [lbsql.go] (the [Balancer], its registry of
    named connectors and the retrying [Connect]) together with the
    variant of [Connect] that is kept next to the tests and tries every
    registered connector once.  The registry is a Go
    [map[string]driver.Connector]; it is embedded as a stdpp [gmap]. *)

From stdpp Require Import gmap strings list fin_maps.

(** ** Values that cross the API *)

(** Go [error] values.  A nil [error] is [None : option error].
    [PermanentError] is the wrapper built by [backoff.Permanent];
    [Canceled] and [DeadlineExceeded] are the two values of
    [context.Context.Err]; [errors_New] stands for any error a
    connector makes up itself. *)
Inductive error : Type :=
| ErrNoConnectors
| Canceled
| DeadlineExceeded
| errors_New (text : string)
| PermanentError (Err : error).

(** A [driver.Conn] is opaque to the balancer: a handle.  The nil
    interface value is [None : option Conn]. *)
Definition Conn : Type := nat.

(** [context.Context], as far as the balancer looks at it: the instant
    at which it is done, if any, and the error [Err] reports from then
    on.  Time is counted in the observation points of [Connect], see
    [t_call], [t_next] and [t_wait]. *)
Record Context : Type := mkContext {
  done_at : option nat;
  cause : error
}.

Definition Err (ctx : Context) (now : nat) : option error :=
  match done_at ctx with
  | Some d => if d <=? now then Some (cause ctx) else None
  | None => None
  end.

(** [context.Background()] is never done. *)
Definition Background : Context := mkContext None Canceled.

(** A non-nil [driver.Connector]: its [Connect] method.  The result may
    depend on the context it is handed and on the instant of the call;
    it is the Go pair [(driver.Conn, error)]. *)
Record ConnectorImpl : Type := mkConnector {
  Connect_of : Context -> nat -> option Conn * option error
}.

(** A [driver.Connector] interface value; [None] is the nil interface. *)
Definition Connector : Type := option ConnectorImpl.

(** ** The balancer *)

(** [Balancer.mu.connectors].  The mutex serialises the methods; each
    method below is one atomic step on the map. *)
Record Balancer : Type := mkBalancer {
  connectors : gmap string Connector
}.

Definition NewBalancer : Balancer := mkBalancer ∅.

(** [b.mu.connectors[name] = c] *)
Definition Add (name : string) (c : Connector) (b : Balancer) : Balancer :=
  mkBalancer (<[name := c]> (connectors b)).

(** [delete(b.mu.connectors, name)] *)
Definition Remove (name : string) (b : Balancer) : Balancer :=
  mkBalancer (delete name (connectors b)).

(** Go leaves the order of [for ... := range m] unspecified and
    randomises it.  [range seed m] is the sequence of entries one such
    loop visits: the [seed] picks one of the orderings of the entries
    of [m].  Every ordering is reached by some seed ([range_complete]). *)
Definition range {V} (seed : nat) (m : gmap string V) : list (string * V) :=
  let entries := map_to_list m in
  let orders := permutations entries in
  default entries (orders !! (seed mod length orders)).

(** [ConnectorNames]: [names] starts as the nil slice and every visited
    name is appended. *)
Definition ConnectorNames (seed : nat) (b : Balancer) : list string :=
  foldl (fun names entry => names ++ [entry.1]) [] (range seed (connectors b)).

(** [randomConnector]: return from inside the first iteration of the
    range loop; [ErrNoConnectors] when the loop body never runs. *)
Definition randomConnector (seed : nat) (b : Balancer)
  : Connector * option error :=
  match range seed (connectors b) with
  | entry :: _ => (entry.2, None)
  | [] => (None, Some ErrNoConnectors)
  end.

(** ** Connect: the retry loop

    [Connect] hands a closure to [backoff.Retry].  The closure reads the
    registry afresh on every run, so what other goroutines do to the
    balancer between two runs is visible to the next one; and the order
    in which the range loop of [randomConnector] visits the map changes
    from run to run.  A [World] fixes these choices of the environment,
    attempt by attempt (attempts are numbered from 0). *)

(** What [NextBackOff] of the exponential schedule answers: one more
    delay, or [backoff.Stop] once its elapsed-time budget is used up. *)
Inductive BackOffAnswer : Type := Wait | Stop.

Record World : Type := mkWorld {
  balancer_at : nat -> Balancer;
  seed_at : nat -> nat;
  next_backoff : nat -> BackOffAnswer
}.

(** The instants at which attempt [i] looks at the outside: when the
    operation runs, when the schedule is asked for the next delay, and
    when the wait for that delay is over. *)
Definition t_call (i : nat) : nat := 3 * i.
Definition t_next (i : nat) : nat := 3 * i + 1.
Definition t_wait (i : nat) : nat := 3 * i + 2.
Arguments t_call : simpl never.
Arguments t_next : simpl never.
Arguments t_wait : simpl never.

(** How a call ends: it returns, it panics, or (an artefact of the
    fuel) it is still retrying when the fuel is used up. *)
Inductive result (A : Type) : Type :=
| Returned (a : A)
| Panicked
| Pending.
Arguments Returned {A} a.
Arguments Panicked {A}.
Arguments Pending {A}.

(** One invocation of a connector's [Connect]: the attempt and the
    connector. *)
Definition call : Type := (nat * ConnectorImpl)%type.

(** The variable [conn] of [Connect] that the closure assigns to, and a
    ghost record of the connector invocations made so far. *)
Record Frame : Type := mkFrame {
  conn : option Conn;
  calls : list call
}.

(** The closure passed to [backoff.Retry], at attempt [i].  Calling a
    method on the nil interface value panics. *)
Definition operation (w : World) (ctx : Context) (i : nat) (fr : Frame)
  : result (option error) * Frame :=
  match randomConnector (seed_at w i) (balancer_at w i) with
  | (_, Some err) => (Returned (Some (PermanentError err)), fr)
  | (None, None) => (Panicked, fr)
  | (Some c, None) =>
      let r := Connect_of c ctx (t_call i) in
      (Returned r.2, mkFrame r.1 (calls fr ++ [(i, c)]))
  end.

(** Modelled from the spec: [backoff.Retry] over
    [backoff.WithContext (NewExponentialBackOff ()) ctx]; the package
    github.com/cenkalti/backoff is imported by lbsql.go and is not part
    of the sources.  Steps 1 to 4 of the Connect algorithm (snapshot,
    selection, invocation) are the operation, which every turn of the
    loop runs first.  Then, following steps 5 to 9: success ends the
    loop; a permanent error ends it with the wrapped error; after any
    other failure, before the loop is entered again, the token is
    looked at, then the schedule, then the wait, which the token
    interrupts.  The loop has one error to give back when it ends after
    a failure, the error of the attempt just made: it is what [Stop]
    of the schedule ends the loop with, and, in the program as built
    with this package, also what a fired token ends it with (step 7
    names the token's own error there; the balancer returns the
    token's error only when the connector does).  [fuel] bounds the
    number of attempts. *)
Fixpoint Retry {S : Type} (fuel : nat)
    (o : nat -> S -> result (option error) * S)
    (next : nat -> BackOffAnswer) (ctx : Context) (i : nat) (s : S)
  : result (option error) * S :=
  match fuel with
  | 0 => (Pending, s)
  | Datatypes.S fuel' =>
      match o i s with
      | (Returned None, s') => (Returned None, s')
      | (Returned (Some (PermanentError e)), s') => (Returned (Some e), s')
      | (Returned (Some err), s') =>
          match Err ctx (t_next i) with
          | Some _ => (Returned (Some err), s')
          | None =>
              match next i with
              | Stop => (Returned (Some err), s')
              | Wait =>
                  match Err ctx (t_wait i) with
                  | Some _ => (Returned (Some err), s')
                  | None => Retry fuel' o next ctx (Datatypes.S i) s'
                  end
              end
          end
      | (Panicked, s') => (Panicked, s')
      | (Pending, s') => (Pending, s')
      end
  end.

(** [Connect] from attempt [i] on, with the frame [fr]: the retry loop
    and the two returns after it.  The second component is the ghost
    record of invocations. *)
Definition Connect_from (w : World) (ctx : Context) (fuel i : nat) (fr : Frame)
  : result (option Conn * option error) * list call :=
  match Retry fuel (operation w ctx) (next_backoff w) ctx i fr with
  | (Returned (Some err), fr') => (Returned (None, Some err), calls fr')
  | (Returned None, fr') => (Returned (conn fr', None), calls fr')
  | (Panicked, fr') => (Panicked, calls fr')
  | (Pending, fr') => (Pending, calls fr')
  end.

Definition Connect (w : World) (ctx : Context) (fuel : nat)
  : result (option Conn * option error) * list call :=
  Connect_from w ctx fuel 0 (mkFrame None []).

(** [Open]: the name is dropped and [Connect] runs under
    [context.Background()]. *)
Definition Open (w : World) (name : string) (fuel : nat)
  : result (option Conn * option error) * list call :=
  Connect w Background fuel.

(** [Driver] returns the balancer. *)
Definition Driver (b : Balancer) : Balancer := b.

(** [OpenConnector] returns the balancer and the nil error. *)
Definition OpenConnector (name : string) (b : Balancer)
  : Balancer * option error :=
  (b, None).

(** A world in which nobody touches the balancer [b] while [Connect]
    runs. *)
Definition quiet (b : Balancer) (seeds : nat -> nat)
    (next : nat -> BackOffAnswer) : World :=
  mkWorld (fun _ => b) seeds next.

Definition is_permanent (e : error) : bool :=
  match e with PermanentError _ => true | _ => false end.

(** ** The variant that tries every connector once

    The second half of lbsql_test.go carries this other [Connect]: it
    copies all connectors out of the map and walks the copy. *)
Module Sequential.

(** [randomConnectors]: the values of the map in visiting order. *)
Definition randomConnectors (seed : nat) (b : Balancer) : list Connector :=
  foldl (fun cs entry => cs ++ [entry.2]) [] (range seed (connectors b)).

(** The loop over the copied slice; [j] counts the iterations and is
    the instant of the iteration, [err] is the variable of that name
    declared before the loop. *)
Fixpoint try_each (ctx : Context) (cs : list Connector) (j : nat)
    (err : option error) (log : list call)
  : result (option Conn * option error) * list call :=
  match cs with
  | [] => (Returned (None, err), log)
  | c :: cs' =>
      match Err ctx j with
      | Some cerr => (Returned (None, Some cerr), log)
      | None =>
          match c with
          | None => (Panicked, log)
          | Some c =>
              let r := Connect_of c ctx j in
              match r.2 with
              | None => (Returned (r.1, None), log ++ [(j, c)])
              | Some e => try_each ctx cs' (S j) (Some e) (log ++ [(j, c)])
              end
          end
      end
  end.

Definition Connect (seed : nat) (b : Balancer) (ctx : Context)
  : result (option Conn * option error) * list call :=
  let cs := randomConnectors seed b in
  if length cs =? 0 then (Returned (None, Some ErrNoConnectors), [])
  else try_each ctx cs 0 None [].

(** [Open] of this variant. *)
Definition Open (seed : nat) (b : Balancer) (name : string)
  : result (option Conn * option error) * list call :=
  Connect seed b Background.

End Sequential.

(** ** Histories of registry operations *)

Inductive op : Type :=
| OpAdd (name : string) (c : Connector)
| OpRemove (name : string).

Definition apply_op (b : Balancer) (o : op) : Balancer :=
  match o with
  | OpAdd name c => Add name c b
  | OpRemove name => Remove name b
  end.

(** The balancer after the operations [ops], oldest first. *)
Definition run (ops : list op) (b : Balancer) : Balancer :=
  foldl apply_op b ops.

(** [name] has been added and not removed afterwards: some [Add] of it
    in the history is followed by no [Remove] of it. *)
Definition added_not_removed (ops : list op) (name : string) : Prop :=
  ∃ before c after,
    ops = before ++ OpAdd name c :: after ∧
    ∀ name', OpRemove name' ∈ after → name' ≠ name.

(** ** The connectors of the test file *)

(** [testConnector]: [Connect] returns [nil, nil]. *)
Definition testConnector : ConnectorImpl :=
  mkConnector (fun _ _ => (None, None)).

(** [errConnector]: [Connect] returns [nil, errors.New("err")]. *)
Definition errConnector : ConnectorImpl :=
  mkConnector (fun _ _ => (None, Some (errors_New "err"))).

(** A connector that hands out the connection [c]. *)
Definition okConnector (c : Conn) : ConnectorImpl :=
  mkConnector (fun _ _ => (Some c, None)).

(** ** Facts about [range] *)

Section range_facts.
Context {V : Type}.
Implicit Types (m : gmap string V) (seed : nat).

Lemma range_Permutation seed m : range seed m ≡ₚ map_to_list m.
Proof.
  unfold range. cbv zeta.
  destruct (permutations (map_to_list m) !! _) as [l|] eqn:Hl; [|done].
  symmetry. apply permutations_Permutation.
  by eapply list_elem_of_lookup_2.
Qed.

Lemma range_complete m (l : list (string * V)) :
  l ≡ₚ map_to_list m → ∃ seed, range seed m = l.
Proof.
  intros Hl. symmetry in Hl. apply permutations_Permutation in Hl.
  apply list_elem_of_lookup in Hl as [i Hi].
  exists i. unfold range. cbv zeta.
  rewrite Nat.mod_small; [by rewrite Hi|].
  by eapply lookup_lt_Some.
Qed.

Lemma range_empty seed : range seed (∅ : gmap string V) = [].
Proof.
  apply Permutation_nil_r. rewrite range_Permutation.
  by rewrite map_to_list_empty.
Qed.

Lemma range_nil_inv seed m : range seed m = [] → m = ∅.
Proof.
  intros H. apply map_to_list_empty_iff, Permutation_nil_r.
  by rewrite <-(range_Permutation seed), H.
Qed.

Lemma range_singleton seed name (v : V) :
  range seed ({[name := v]} : gmap string V) = [(name, v)].
Proof.
  apply Permutation_singleton_r. rewrite range_Permutation.
  by rewrite map_to_list_singleton.
Qed.

Lemma range_length seed m : length (range seed m) = size m.
Proof. by rewrite range_Permutation, length_map_to_list. Qed.

Lemma elem_of_range seed m name (v : V) :
  (name, v) ∈ range seed m ↔ m !! name = Some v.
Proof. by rewrite range_Permutation, elem_of_map_to_list. Qed.

Lemma NoDup_fst_range seed m : NoDup (range seed m).*1.
Proof. rewrite range_Permutation. apply NoDup_fst_map_to_list. Qed.
End range_facts.

(** A loop that appends [f entry] for every visited entry collects the
    images in visiting order. *)
Lemma foldl_snoc_fmap {A B} (f : A → B) (l : list A) (acc : list B) :
  foldl (fun acc entry => acc ++ [f entry]) acc l = acc ++ (f <$> l).
Proof.
  revert acc. induction l as [|e l IH]; intros acc; simpl.
  - by rewrite app_nil_r.
  - by rewrite IH, <-app_assoc.
Qed.

Lemma ConnectorNames_range seed b :
  ConnectorNames seed b = (range seed (connectors b)).*1.
Proof. unfold ConnectorNames. by rewrite (foldl_snoc_fmap fst). Qed.

Lemma elem_of_ConnectorNames seed b name :
  name ∈ ConnectorNames seed b ↔ is_Some (connectors b !! name).
Proof.
  rewrite ConnectorNames_range, list_elem_of_fmap. split.
  - intros [[n v] [-> Hin]]. apply elem_of_range in Hin. by eexists.
  - intros [v Hv]. exists (name, v). split; [done|]. by apply elem_of_range.
Qed.

Lemma NoDup_ConnectorNames seed b : NoDup (ConnectorNames seed b).
Proof. rewrite ConnectorNames_range. apply NoDup_fst_range. Qed.

Lemma length_ConnectorNames seed b :
  length (ConnectorNames seed b) = size (connectors b).
Proof. by rewrite ConnectorNames_range, length_fmap, range_length. Qed.

Lemma randomConnectors_range seed b :
  Sequential.randomConnectors seed b = (range seed (connectors b)).*2.
Proof.
  unfold Sequential.randomConnectors. by rewrite (foldl_snoc_fmap snd).
Qed.

(** A map with one entry is visited in one way only. *)
Lemma range_size_1 {V} seed (m : gmap string V) name (v : V) :
  size m = 1 → m !! name = Some v → range seed m = [(name, v)].
Proof.
  intros Hsize Hlook.
  pose proof (range_length seed m) as Hlen. rewrite Hsize in Hlen.
  apply (elem_of_range seed) in Hlook.
  destruct (range seed m) as [|e [|e' l]]; simplify_eq/=.
  by apply list_elem_of_singleton in Hlook as ->.
Qed.

Lemma lookup_size_1 {V} (m : gmap string V) name (v : V) name' (v' : V) :
  size m = 1 → m !! name = Some v → m !! name' = Some v' →
  name' = name ∧ v' = v.
Proof.
  intros Hsize Hlook Hlook'. apply (elem_of_range 0) in Hlook'.
  rewrite (range_size_1 0 m name v) in Hlook' by done.
  by apply list_elem_of_singleton in Hlook' as [= -> ->].
Qed.

(** ** The registry *)

Lemma run_snoc ops o b : run (ops ++ [o]) b = apply_op (run ops b) o.
Proof. unfold run. by rewrite foldl_app. Qed.

Lemma added_not_removed_nil name : ¬ added_not_removed [] name.
Proof. intros (before & c & after & Heq & _). by destruct before. Qed.

(** What one more operation does to the names "added and not removed". *)
Lemma added_not_removed_snoc ops o name :
  added_not_removed (ops ++ [o]) name ↔
    (∃ c, o = OpAdd name c) ∨
    (added_not_removed ops name ∧ o ≠ OpRemove name).
Proof.
  split.
  - intros (before & c & after & Heq & Hafter).
    destruct after as [|o' after _] using rev_ind.
    + apply (app_inj_2 _ _ [o] [OpAdd name c]) in Heq as [_ [= ->]]; eauto.
    + right.
      change (ops ++ [o] = before ++ (OpAdd name c :: after) ++ [o']) in Heq.
      rewrite app_assoc in Heq.
      apply app_inj_2 in Heq as [-> [= ->]]; [|done]. split.
      * exists before, c, after. split; [done|].
        intros name' Hin. apply Hafter. set_solver.
      * intros ->. by apply (Hafter name); [set_solver|].
  - intros [[c ->] | [(before & c & after & -> & Hafter) Hne]].
    + exists ops, c, []. split; [done|]. intros name' Hin. by inversion Hin.
    + exists before, c, (after ++ [o]). rewrite <-app_assoc. split; [done|].
      intros name' [Hin|Hin]%elem_of_app; [by apply Hafter|].
      apply list_elem_of_singleton in Hin as <-. congruence.
Qed.

(** The entries of the map after a history are those of the names added
    and not removed since. *)
Lemma run_lookup_is_Some ops name :
  is_Some (connectors (run ops NewBalancer) !! name) ↔
  added_not_removed ops name.
Proof.
  induction ops as [|o ops IH] using rev_ind.
  - split; [|by intros ?%added_not_removed_nil].
    simpl. rewrite lookup_empty. by intros [? ?].
  - rewrite run_snoc, added_not_removed_snoc, <-IH.
    destruct o as [name' c|name']; simpl.
    + destruct (decide (name' = name)) as [->|Hne].
      * rewrite lookup_insert_eq. split; [eauto|by eexists].
      * rewrite lookup_insert_ne by done. split; [by right|].
        intros [[c' [= ? _]]|[? _]]; done.
    + destruct (decide (name' = name)) as [->|Hne].
      * rewrite lookup_delete_eq. split; [by intros [? ?]|].
        intros [[c [=]]|[_ ?]]; done.
      * rewrite lookup_delete_ne by done. split; [|by intros [[? [=]]|[? _]]].
        intros ?. right. split; [done|]. congruence.
Qed.

Lemma Remove_Add_absent name c b :
  connectors b !! name = None → Remove name (Add name c b) = b.
Proof.
  intros Habsent. destruct b as [m]. unfold Remove, Add; simpl in *.
  by rewrite delete_insert_eq, delete_id.
Qed.

(** In general the pair [Add], [Remove] takes [name] out of the names. *)
Lemma Remove_Add_names s1 s2 name c b x :
  x ∈ ConnectorNames s2 (Remove name (Add name c b)) ↔
  x ∈ ConnectorNames s1 b ∧ x ≠ name.
Proof.
  rewrite !elem_of_ConnectorNames. simpl. rewrite delete_insert_eq.
  destruct (decide (name = x)) as [->|Hne].
  - rewrite lookup_delete_eq. split; [by intros [? ?]|by intros [_ ?]].
  - rewrite lookup_delete_ne by done. split; [|by intros [? _]].
    intros ?. split; [done|congruence].
Qed.

Lemma Add_existing_length s1 s2 name c b :
  is_Some (connectors b !! name) →
  length (ConnectorNames s2 (Add name c b)) = length (ConnectorNames s1 b).
Proof.
  intros [c' Hc']. rewrite !length_ConnectorNames. simpl.
  by erewrite map_size_insert_Some.
Qed.

(** C5: after any history of Add and Remove on a fresh balancer, the
    names ConnectorNames returns are exactly those added and not removed
    afterwards, each of them once. *)
Theorem ConnectorNames_history (ops : list op) (seed : nat) :
  NoDup (ConnectorNames seed (run ops NewBalancer)) ∧
  ∀ name, name ∈ ConnectorNames seed (run ops NewBalancer) ↔
          added_not_removed ops name.
Proof.
  split; [apply NoDup_ConnectorNames|].
  intros name. by rewrite elem_of_ConnectorNames, run_lookup_is_Some.
Qed.

(** C6, amended: when [name] is not registered, Add of it followed by
    Remove of it gives back the registry, and so the same set of names. *)
Theorem Add_Remove_no_residue (b : Balancer) (name : string) (c : Connector)
    (s1 s2 : nat) :
  connectors b !! name = None →
  Remove name (Add name c b) = b ∧
  ∀ x, x ∈ ConnectorNames s2 (Remove name (Add name c b)) ↔
       x ∈ ConnectorNames s1 b.
Proof.
  intros Habsent. split; [by apply Remove_Add_absent|].
  intros x. rewrite (Remove_Add_names s1). split; [by intros [? _]|].
  intros Hx. split; [done|]. intros ->.
  apply elem_of_ConnectorNames in Hx as [? ?]. congruence.
Qed.

Lemma Add_Remove_no_residue_witness :
  connectors (Add "foo" (Some testConnector) NewBalancer) !! "bar" = None ∧
  Remove "bar" (Add "bar" None (Add "foo" (Some testConnector) NewBalancer))
    = Add "foo" (Some testConnector) NewBalancer ∧
  ∀ x, x ∈ ConnectorNames 1
         (Remove "bar" (Add "bar" None
            (Add "foo" (Some testConnector) NewBalancer))) ↔
       x ∈ ConnectorNames 0 (Add "foo" (Some testConnector) NewBalancer).
Proof.
  split; [reflexivity|].
  apply (Add_Remove_no_residue
           (Add "foo" (Some testConnector) NewBalancer) "bar" None 0 1).
  reflexivity.
Defined.

(** C6 as stated fails when the name was registered before: the pair
    removes it. *)
Lemma Add_Remove_residue_counterexample :
  ¬ (∀ x, x ∈ ConnectorNames 0
            (Remove "foo" (Add "foo" (Some errConnector)
               (Add "foo" (Some testConnector) NewBalancer))) ↔
          x ∈ ConnectorNames 0 (Add "foo" (Some testConnector) NewBalancer)).
Proof.
  intros H. specialize (H "foo"). vm_compute in H.
  destruct H as [_ H]. specialize (H ltac:(left)). inversion H.
Qed.

(** C7: Add of a name that is registered overwrites its entry; the name
    is listed once and the list of names does not get longer. *)
Theorem Add_existing_overwrites (b : Balancer) (name : string)
    (c : Connector) (s1 s2 : nat) :
  is_Some (connectors b !! name) →
  connectors (Add name c b) !! name = Some c ∧
  NoDup (ConnectorNames s2 (Add name c b)) ∧
  length (ConnectorNames s2 (Add name c b)) ≤ length (ConnectorNames s1 b).
Proof.
  intros Hin. split_and!.
  - simpl. apply lookup_insert_eq.
  - apply NoDup_ConnectorNames.
  - by rewrite (Add_existing_length s1).
Qed.

Lemma Add_existing_overwrites_witness :
  connectors (Add "foo" (Some errConnector)
                (Add "foo" (Some testConnector) NewBalancer)) !! "foo"
    = Some (Some errConnector) ∧
  length (ConnectorNames 1 (Add "foo" (Some errConnector)
                              (Add "foo" (Some testConnector) NewBalancer)))
    ≤ length (ConnectorNames 0 (Add "foo" (Some testConnector) NewBalancer)).
Proof.
  destruct (Add_existing_overwrites
              (Add "foo" (Some testConnector) NewBalancer) "foo"
              (Some errConnector) 0 1) as (H1 & _ & H2).
  - exists (Some testConnector). reflexivity.
  - split; [exact H1|exact H2].
Defined.

(** C10: Add and Remove leave the entry of every other name as it was,
    present or absent, with the same connector. *)
Theorem Add_Remove_frame (b : Balancer) (name other : string) (c : Connector) :
  other ≠ name →
  connectors (Add name c b) !! other = connectors b !! other ∧
  connectors (Remove name b) !! other = connectors b !! other.
Proof.
  intros Hne. simpl. split.
  - by apply lookup_insert_ne.
  - by apply lookup_delete_ne.
Qed.

Lemma Add_Remove_frame_witness :
  connectors (Add "bar" None (Add "foo" (Some testConnector) NewBalancer))
    !! "foo" = Some (Some testConnector) ∧
  connectors (Remove "bar" (Add "foo" (Some testConnector) NewBalancer))
    !! "foo" = Some (Some testConnector).
Proof.
  apply (Add_Remove_frame
           (Add "foo" (Some testConnector) NewBalancer) "bar" "foo" None).
  discriminate.
Defined.

(** ** The context *)

Lemma Err_later ctx t t' e : Err ctx t = Some e → t ≤ t' → Err ctx t' = Some e.
Proof.
  unfold Err. destruct (done_at ctx) as [d|]; [|done].
  destruct (Nat.leb_spec d t); [|done]. intros [= <-] Hle.
  destruct (Nat.leb_spec d t'); [done|lia].
Qed.

Lemma Err_earlier ctx t t' : Err ctx t = None → t' ≤ t → Err ctx t' = None.
Proof.
  intros Hnone Hle. destruct (Err ctx t') as [e|] eqn:He; [|done].
  by rewrite (Err_later _ _ _ _ He Hle) in Hnone.
Qed.

(** ** The selection step *)

Lemma randomConnector_empty seed b :
  connectors b = ∅ → randomConnector seed b = (None, Some ErrNoConnectors).
Proof. intros Hb. unfold randomConnector. by rewrite Hb, range_empty. Qed.

(** Whatever [randomConnector] returns without error is registered. *)
Lemma randomConnector_registered seed b c :
  randomConnector seed b = (c, None) → ∃ name, connectors b !! name = Some c.
Proof.
  unfold randomConnector.
  destruct (range seed (connectors b)) as [|[name c'] l] eqn:Hr; [done|].
  intros [= <-]. exists name. apply (elem_of_range seed). rewrite Hr. by left.
Qed.

Lemma randomConnector_error seed b c e :
  randomConnector seed b = (c, Some e) → e = ErrNoConnectors ∧ connectors b = ∅.
Proof.
  unfold randomConnector.
  destruct (range seed (connectors b)) as [|[name c'] l] eqn:Hr; [|done].
  intros [= <- <-]. split; [done|]. by eapply range_nil_inv.
Qed.

Lemma randomConnector_single seed b name c :
  size (connectors b) = 1 → connectors b !! name = Some c →
  randomConnector seed b = (c, None).
Proof.
  intros Hsize Hlook. unfold randomConnector.
  by rewrite (range_size_1 seed _ name c).
Qed.

(** ** The retry loop *)

Lemma operation_empty w ctx i fr :
  connectors (balancer_at w i) = ∅ →
  operation w ctx i fr = (Returned (Some (PermanentError ErrNoConnectors)), fr).
Proof. intros Hb. unfold operation. by rewrite randomConnector_empty. Qed.

Lemma operation_nil w ctx i fr :
  randomConnector (seed_at w i) (balancer_at w i) = (None, None) →
  operation w ctx i fr = (Panicked, fr).
Proof. intros Hsel. unfold operation. by rewrite Hsel. Qed.

Lemma operation_call w ctx i fr c :
  randomConnector (seed_at w i) (balancer_at w i) = (Some c, None) →
  operation w ctx i fr =
    (Returned (Connect_of c ctx (t_call i)).2,
     mkFrame (Connect_of c ctx (t_call i)).1 (calls fr ++ [(i, c)])).
Proof. intros Hsel. unfold operation. by rewrite Hsel. Qed.

(** C1: when the registry is empty at the start of an attempt, be it
    the first one or a later one inside the retry loop, Connect returns
    ErrNoConnectors from that attempt: no connector is invoked, nothing
    is retried, and the state of the token plays no part. *)
Theorem Connect_no_connectors (w : World) (ctx : Context) (fuel i : nat)
    (fr : Frame) :
  connectors (balancer_at w i) = ∅ →
  Connect_from w ctx (S fuel) i fr
    = (Returned (None, Some ErrNoConnectors), calls fr).
Proof.
  intros Hempty. unfold Connect_from. simpl.
  by rewrite operation_empty.
Qed.

Lemma Connect_no_connectors_witness :
  Connect (quiet NewBalancer (fun i => i) (fun _ => Wait))
          (mkContext (Some 0) Canceled) 1
    = (Returned (None, Some ErrNoConnectors), []).
Proof.
  apply (Connect_no_connectors
           (quiet NewBalancer (fun i => i) (fun _ => Wait))
           (mkContext (Some 0) Canceled) 0 0 (mkFrame None [])).
  reflexivity.
Defined.

(** One turn of the loop after an ordinary failure. *)
Lemma Retry_failed {S} fuel (o : nat → S → result (option error) * S)
    next ctx i s s' err :
  o i s = (Returned (Some err), s') → is_permanent err = false →
  Retry (Datatypes.S fuel) o next ctx i s =
    match Err ctx (t_next i) with
    | Some _ => (Returned (Some err), s')
    | None =>
        match next i with
        | Stop => (Returned (Some err), s')
        | Wait =>
            match Err ctx (t_wait i) with
            | Some _ => (Returned (Some err), s')
            | None => Retry fuel o next ctx (Datatypes.S i) s'
            end
        end
    end.
Proof. intros Ho Hperm. simpl. rewrite Ho. by destruct err. Qed.

Lemma Retry_permanent {S} fuel (o : nat → S → result (option error) * S)
    next ctx i s s' e :
  o i s = (Returned (Some (PermanentError e)), s') →
  Retry (Datatypes.S fuel) o next ctx i s = (Returned (Some e), s').
Proof. intros Ho. simpl. by rewrite Ho. Qed.

Lemma Retry_succeeded {S} fuel (o : nat → S → result (option error) * S)
    next ctx i s s' :
  o i s = (Returned None, s') →
  Retry (Datatypes.S fuel) o next ctx i s = (Returned None, s').
Proof. intros Ho. simpl. by rewrite Ho. Qed.

Lemma Connect_from_again w ctx fuel i fr fr' err :
  operation w ctx i fr = (Returned (Some err), fr') →
  is_permanent err = false →
  Err ctx (t_wait i) = None → next_backoff w i = Wait →
  Connect_from w ctx (S fuel) i fr = Connect_from w ctx fuel (S i) fr'.
Proof.
  intros Ho Hperm Hctx Hnext. unfold Connect_from.
  rewrite (Retry_failed _ _ _ _ _ _ _ _ Ho Hperm), Hnext, Hctx.
  rewrite (Err_earlier ctx (t_wait i)); [done..|unfold t_next, t_wait; lia].
Qed.

Lemma Connect_from_stop w ctx fuel i fr fr' err :
  operation w ctx i fr = (Returned (Some err), fr') →
  is_permanent err = false →
  Err ctx (t_next i) = None → next_backoff w i = Stop →
  Connect_from w ctx (S fuel) i fr = (Returned (None, Some err), calls fr').
Proof.
  intros Ho Hperm Hctx Hnext. unfold Connect_from.
  by rewrite (Retry_failed _ _ _ _ _ _ _ _ Ho Hperm), Hnext, Hctx.
Qed.

Section budget.
Variables (w : World) (ctx : Context) (k : nat) (errs : nat → error).

(** Every attempt up to the [k]-th reaches a connector, which fails
    with the ordinary error [errs i]. *)
Hypothesis attempts_fail : ∀ i, i ≤ k → ∃ c cn,
  randomConnector (seed_at w i) (balancer_at w i) = (Some c, None) ∧
  Connect_of c ctx (t_call i) = (cn, Some (errs i)) ∧
  is_permanent (errs i) = false.
(** The token has not fired when the schedule is asked after attempt
    [k]. *)
Hypothesis not_fired : Err ctx (t_next k) = None.
(** The schedule grants a delay after each attempt before the [k]-th
    and stops after the [k]-th. *)
Hypothesis budget_lasts : ∀ i, i < k → next_backoff w i = Wait.
Hypothesis budget_exhausted : next_backoff w k = Stop.

Lemma Connect_from_budget d : ∀ i fr fuel,
  i + d = k → d < fuel →
  ∃ log, Connect_from w ctx fuel i fr
           = (Returned (None, Some (errs k)), log) ∧
         length log = length (calls fr) + S d.
Proof using All.
  induction d as [|d IH]; intros i fr [|fuel] Hi Hfuel; try lia.
  - assert (i = k) as -> by lia.
    destruct (attempts_fail k) as (c & cn & Hsel & Hcall & Hperm); [lia|].
    pose proof (operation_call w ctx k fr c Hsel) as Ho.
    rewrite Hcall in Ho. simpl in Ho.
    rewrite (Connect_from_stop _ _ _ _ _ _ _ Ho Hperm not_fired
               budget_exhausted).
    eexists. split; [done|]. simpl. rewrite length_app. simpl. lia.
  - destruct (attempts_fail i) as (c & cn & Hsel & Hcall & Hperm); [lia|].
    pose proof (operation_call w ctx i fr c Hsel) as Ho.
    rewrite Hcall in Ho. simpl in Ho.
    rewrite (Connect_from_again _ _ _ _ _ _ _ Ho Hperm).
    + destruct (IH (S i) (mkFrame cn (calls fr ++ [(i, c)])) fuel)
        as (log & -> & Hlen); [lia..|].
      exists log. split; [done|]. rewrite Hlen. simpl.
      rewrite length_app. simpl. lia.
    + apply (Err_earlier ctx (t_next k)); [done|].
      unfold t_next, t_wait. lia.
    + apply budget_lasts. lia.
Qed.
End budget.

(** C2: when every attempt fails and the schedule's budget runs out
    after attempt [k], Connect ends there (any fuel above [k] is enough,
    and exactly [k + 1] connector calls were made) and what it returns
    is the error of the last connector call, as it is. *)
Theorem Connect_budget_exhausted (w : World) (ctx : Context) (k : nat)
    (errs : nat → error) :
  (∀ i, i ≤ k → ∃ c cn,
     randomConnector (seed_at w i) (balancer_at w i) = (Some c, None) ∧
     Connect_of c ctx (t_call i) = (cn, Some (errs i)) ∧
     is_permanent (errs i) = false) →
  Err ctx (t_next k) = None →
  (∀ i, i < k → next_backoff w i = Wait) →
  next_backoff w k = Stop →
  ∀ fuel, k < fuel →
    ∃ log, Connect w ctx fuel = (Returned (None, Some (errs k)), log) ∧
           length log = S k.
Proof.
  intros Hfail Hctx Hwait Hstop fuel Hfuel.
  destruct (Connect_from_budget w ctx k errs Hfail Hctx Hwait Hstop
              k 0 (mkFrame None []) fuel) as (log & Heq & Hlen); [lia..|].
  exists log. split; [exact Heq|]. simpl in Hlen. lia.
Qed.

Lemma Connect_budget_exhausted_witness :
  ∃ log,
    Connect (quiet (Add "err" (Some errConnector) NewBalancer) (fun i => i)
               (fun i => if i <? 2 then Wait else Stop))
            Background 5
      = (Returned (None, Some (errors_New "err")), log) ∧
    length log = 3.
Proof.
  apply (Connect_budget_exhausted
           (quiet (Add "err" (Some errConnector) NewBalancer) (fun i => i)
              (fun i => if i <? 2 then Wait else Stop))
           Background 2 (fun _ => errors_New "err")).
  - intros i _. exists errConnector, None. split; [|split]; reflexivity.
  - reflexivity.
  - intros [|[|i]] Hi; [reflexivity..|lia].
  - reflexivity.
  - lia.
Defined.

(** [Connect] unfolded by one attempt. *)
Lemma Connect_from_step w ctx fuel i fr :
  Connect_from w ctx (S fuel) i fr =
    match randomConnector (seed_at w i) (balancer_at w i) with
    | (_, Some err) => (Returned (None, Some err), calls fr)
    | (None, None) => (Panicked, calls fr)
    | (Some c, None) =>
        let r := Connect_of c ctx (t_call i) in
        let log := calls fr ++ [(i, c)] in
        match r.2 with
        | None => (Returned (r.1, None), log)
        | Some (PermanentError e) => (Returned (None, Some e), log)
        | Some err =>
            match Err ctx (t_next i) with
            | Some _ => (Returned (None, Some err), log)
            | None =>
                match next_backoff w i with
                | Stop => (Returned (None, Some err), log)
                | Wait =>
                    match Err ctx (t_wait i) with
                    | Some _ => (Returned (None, Some err), log)
                    | None => Connect_from w ctx fuel (S i) (mkFrame r.1 log)
                    end
                end
            end
        end
    end.
Proof.
  unfold Connect_from, operation. simpl.
  destruct (randomConnector _ _) as [[c|] [e|]]; simpl; try done.
  destruct (Connect_of c ctx (t_call i)) as [cn [e|]]; simpl; [|done].
  destruct e; try done;
    destruct (Err ctx (t_next i)); try done;
    destruct (next_backoff w i); try done;
    destruct (Err ctx (t_wait i)); done.
Qed.

(** Every connector [Connect] invokes was registered when the attempt
    that invoked it read the registry. *)
Lemma Connect_from_calls w ctx fuel : ∀ i fr,
  ∃ new, (Connect_from w ctx fuel i fr).2 = calls fr ++ new ∧
    Forall (fun cl : call =>
              i ≤ cl.1 ∧
              ∃ name, connectors (balancer_at w cl.1) !! name = Some (Some cl.2))
           new.
Proof.
  induction fuel as [|fuel IH]; intros i fr.
  { exists []. by rewrite app_nil_r. }
  rewrite Connect_from_step.
  destruct (randomConnector _ _) as [[c|] [e|]] eqn:Hsel; simpl;
    try (exists []; by rewrite app_nil_r).
  apply randomConnector_registered in Hsel.
  assert (Forall (fun cl : call =>
            i ≤ cl.1 ∧
            ∃ name, connectors (balancer_at w cl.1) !! name = Some (Some cl.2))
            [(i, c)]) as Hone by (by repeat constructor).
  destruct (Connect_of c ctx (t_call i)) as [cn [e|]]; simpl; [|by eexists].
  destruct (IH (S i) (mkFrame cn (calls fr ++ [(i, c)])))
    as (new & Hnew & Hall); simpl in Hnew.
  assert (∃ new0, (Connect_from w ctx fuel (S i)
                     (mkFrame cn (calls fr ++ [(i, c)]))).2
                  = calls fr ++ new0 ∧
            Forall (fun cl : call =>
              i ≤ cl.1 ∧
              ∃ name, connectors (balancer_at w cl.1) !! name = Some (Some cl.2))
              new0) as Hrec.
  { exists ((i, c) :: new). rewrite Hnew, <-app_assoc. split; [done|].
    constructor; [by inversion Hone|].
    eapply Forall_impl; [exact Hall|]. intros cl [? ?]. split; [lia|done]. }
  destruct e; try (by eexists);
    destruct (Err ctx (t_next i)); try (by eexists);
    destruct (next_backoff w i); try (by eexists);
    destruct (Err ctx (t_wait i)); try (by eexists); done.
Qed.

Lemma Sequential_try_each_calls ctx (cs : list Connector) :
  ∀ j err log,
    ∃ new, (Sequential.try_each ctx cs j err log).2 = log ++ new ∧
           Forall (fun cl : call => Some cl.2 ∈ cs) new.
Proof.
  induction cs as [|c cs IH]; intros j err log; simpl.
  { exists []. by rewrite app_nil_r. }
  destruct (Err ctx j); [exists []; by rewrite app_nil_r|].
  destruct c as [c|]; [|exists []; by rewrite app_nil_r].
  destruct (Connect_of c ctx j) as [cn [e|]]; simpl.
  - destruct (IH (S j) (Some e) (log ++ [(j, c)])) as (new & -> & Hall).
    exists ((j, c) :: new). rewrite <-app_assoc. split; [done|].
    constructor; [by left|].
    eapply Forall_impl; [exact Hall|]. intros cl ?. by right.
  - exists [(j, c)]. split; [done|]. repeat constructor.
Qed.

(** An attempt that selects a connector calls it: the call is the next
    entry of the record. *)
Lemma Connect_from_first_call w ctx fuel i fr c :
  randomConnector (seed_at w i) (balancer_at w i) = (Some c, None) →
  ∃ rest, (Connect_from w ctx (S fuel) i fr).2 = calls fr ++ (i, c) :: rest.
Proof.
  intros Hsel. rewrite Connect_from_step, Hsel. cbv zeta.
  destruct (Connect_from_calls w ctx fuel (S i)
              (mkFrame (Connect_of c ctx (t_call i)).1 (calls fr ++ [(i, c)])))
    as (new & Hnew & _). cbn [calls] in Hnew. rewrite <-app_assoc in Hnew.
  destruct ((Connect_of c ctx (t_call i)).2) as [e|]; [|by exists []].
  destruct e; try (by exists []);
    destruct (Err ctx (t_next i)); try (by exists []);
    destruct (next_backoff w i); try (by exists []);
    destruct (Err ctx (t_wait i)); try (by exists []); by exists new.
Qed.

(** C4: in a registry with exactly one entry the selection step returns
    that entry's connector whatever the order of the range loop, and
    Connect routes to it: every connector call Connect makes goes to it
    and, the connector not being nil, the first attempt does call it
    and a success of that call is what Connect returns (also in the
    variant that walks all connectors). *)
Theorem single_entry_routing (b : Balancer) (name : string) (c : Connector) :
  size (connectors b) = 1 →
  connectors b !! name = Some c →
  (∀ seed, randomConnector seed b = (c, None)) ∧
  (∀ seed, Sequential.randomConnectors seed b = [c]) ∧
  (∀ w ctx fuel, (∀ i, balancer_at w i = b) →
     Forall (fun cl : call => Some cl.2 = c) (Connect w ctx fuel).2) ∧
  (∀ seed ctx,
     Forall (fun cl : call => Some cl.2 = c) (Sequential.Connect seed b ctx).2) ∧
  (∀ impl, c = Some impl →
     (∀ w ctx fuel, balancer_at w 0 = b →
        (∃ rest, (Connect w ctx (S fuel)).2 = (0, impl) :: rest) ∧
        (∀ cn, Connect_of impl ctx (t_call 0) = (cn, None) →
           Connect w ctx (S fuel) = (Returned (cn, None), [(0, impl)]))) ∧
     (∀ seed ctx, Err ctx 0 = None →
        (Sequential.Connect seed b ctx).2 = [(0, impl)] ∧
        (∀ cn, Connect_of impl ctx 0 = (cn, None) →
           Sequential.Connect seed b ctx
             = (Returned (cn, None), [(0, impl)])))).
Proof.
  intros Hsize Hlook. split_and!.
  - intros seed. by apply (randomConnector_single seed b name).
  - intros seed.
    by rewrite randomConnectors_range, (range_size_1 seed _ name c).
  - intros w ctx fuel Hquiet.
    destruct (Connect_from_calls w ctx fuel 0 (mkFrame None []))
      as (new & Hlog & Hall).
    unfold Connect. rewrite Hlog. simpl.
    eapply Forall_impl; [exact Hall|].
    intros [i c'] [_ [name' Hreg]]. simpl in *. rewrite Hquiet in Hreg.
    by destruct (lookup_size_1 _ _ _ _ _ Hsize Hlook Hreg) as [_ <-].
  - intros seed ctx. unfold Sequential.Connect. cbv zeta.
    rewrite randomConnectors_range, (range_size_1 seed _ name c) by done.
    change (Forall (fun cl : call => Some cl.2 = c)
              (Sequential.try_each ctx [c] 0 None []).2).
    destruct (Sequential_try_each_calls ctx [c] 0 None [])
      as (new & Hlog & Hall). rewrite Hlog. simpl.
    eapply Forall_impl; [exact Hall|].
    intros cl Hin. by apply list_elem_of_singleton in Hin.
  - intros impl ->. split.
    + intros w ctx fuel Hb.
      assert (randomConnector (seed_at w 0) (balancer_at w 0)
              = (Some impl, None)) as Hsel.
      { rewrite Hb. by apply (randomConnector_single _ b name). }
      split.
      * destruct (Connect_from_first_call w ctx fuel 0 (mkFrame None [])
                    impl Hsel) as [rest Hrest].
        exists rest. exact Hrest.
      * intros cn Hcall. unfold Connect.
        rewrite Connect_from_step, Hsel. cbv zeta. by rewrite Hcall.
    + intros seed ctx Hctx. unfold Sequential.Connect. cbv zeta.
      rewrite randomConnectors_range,
        (range_size_1 seed _ name (Some impl)) by done.
      change (length ([(name, Some impl)].*2) =? 0) with false. cbv iota.
      change ([(name, Some impl)].*2) with [Some impl].
      cbn [Sequential.try_each]. rewrite Hctx. cbv zeta. split.
      * by destruct ((Connect_of impl ctx 0).2).
      * intros cn Hcall. by rewrite Hcall.
Qed.

Lemma single_entry_routing_witness :
  (∀ seed, randomConnector seed (Add "foo" (Some testConnector) NewBalancer)
           = (Some testConnector, None)) ∧
  (∀ seed,
     Sequential.randomConnectors seed
       (Add "foo" (Some testConnector) NewBalancer) = [Some testConnector]) ∧
  Connect (quiet (Add "foo" (Some testConnector) NewBalancer)
             (fun i => i) (fun _ => Wait)) Background 1
    = (Returned (None, None), [(0, testConnector)]) ∧
  Sequential.Connect 0 (Add "foo" (Some testConnector) NewBalancer) Background
    = (Returned (None, None), [(0, testConnector)]).
Proof.
  destruct (single_entry_routing
              (Add "foo" (Some testConnector) NewBalancer)
              "foo" (Some testConnector)) as (H1 & H2 & _ & _ & H5).
  - reflexivity.
  - reflexivity.
  - destruct (H5 testConnector eq_refl) as [Hc Hs].
    split; [exact H1|]. split; [exact H2|]. split.
    + apply (Hc (quiet (Add "foo" (Some testConnector) NewBalancer)
                   (fun i => i) (fun _ => Wait)) Background 0);
        reflexivity.
    + apply (Hs 0 Background); reflexivity.
Defined.

(** ** What Connect returns *)

(** When the loop ends in success, the connection is the one the last
    connector call returned, together with a nil error. *)
Lemma Connect_from_returns w ctx fuel : ∀ i fr cn err log,
  Connect_from w ctx fuel i fr = (Returned (cn, err), log) →
  (cn = None ∧ is_Some err) ∨
  (err = None ∧ ∃ i' c, last log = Some (i', c) ∧
                        Connect_of c ctx (t_call i') = (cn, None)).
Proof.
  induction fuel as [|fuel IH]; intros i fr cn err log; [done|].
  rewrite Connect_from_step.
  destruct (randomConnector _ _) as [[c|] [e|]]; simpl;
    try (intros [= <- <- <-]; left; by eauto); try done.
  destruct (Connect_of c ctx (t_call i)) as [cn' [e|]] eqn:Hcall; simpl.
  - destruct e; try (intros [= <- <- <-]; left; by eauto);
      destruct (Err ctx (t_next i));
        try (intros [= <- <- <-]; left; by eauto);
      destruct (next_backoff w i);
        try (intros [= <- <- <-]; left; by eauto);
      destruct (Err ctx (t_wait i));
        try (intros [= <- <- <-]; left; by eauto);
      apply IH.
  - intros [= <- <- <-]. right. split; [done|].
    exists i, c. by rewrite last_snoc.
Qed.

Lemma Sequential_try_each_returns ctx (cs : list Connector) :
  ∀ j err log cn err' log',
    Sequential.try_each ctx cs j err log = (Returned (cn, err'), log') →
    is_Some err ∨ cs ≠ [] →
    (cn = None ∧ is_Some err') ∨
    (err' = None ∧ ∃ j' c, last log' = Some (j', c) ∧
                           Connect_of c ctx j' = (cn, None)).
Proof.
  induction cs as [|c cs IH]; intros j err log cn err' log'; simpl.
  - intros [= <- <- <-] [?|?]; [by left|done].
  - destruct (Err ctx j); [intros [= <- <- <-] _; left; by eauto|].
    destruct c as [c|]; [|done].
    destruct (Connect_of c ctx j) as [cn' [e|]] eqn:Hcall; simpl.
    + intros Heq _. eapply IH; [exact Heq|]. left. by eexists.
    + intros [= <- <- <-] _. right. split; [done|].
      exists j, c. by rewrite last_snoc.
Qed.

(** The variant returns either an error with the nil connection, or
    the nil error with the connection the last connector call
    returned. *)
Lemma Sequential_Connect_returns seed b ctx cn err log :
  Sequential.Connect seed b ctx = (Returned (cn, err), log) →
  (cn = None ∧ is_Some err) ∨
  (err = None ∧ ∃ j c, last log = Some (j, c) ∧
                       Connect_of c ctx j = (cn, None)).
Proof.
  unfold Sequential.Connect. cbv zeta.
  destruct (Sequential.randomConnectors seed b) as [|c cs] eqn:Hcs.
  - intros [= <- <- <-]. left. by eauto.
  - change (length (c :: cs) =? 0) with false. cbv iota.
    intros Heq. eapply Sequential_try_each_returns; [exact Heq|by right].
Qed.

(** C8, amended: when Connect returns, it returns either an error and
    the nil connection, or the nil error and the very connection (nil
    or not) that the last connector call returned with a nil error;
    never a connection together with an error. *)
Theorem Connect_returns (w : World) (ctx : Context) (fuel : nat)
    (cn : option Conn) (err : option error) (log : list call) :
  Connect w ctx fuel = (Returned (cn, err), log) →
  ¬ (is_Some cn ∧ is_Some err) ∧
  ((cn = None ∧ is_Some err) ∨
   (err = None ∧ ∃ i c, last log = Some (i, c) ∧
                        Connect_of c ctx (t_call i) = (cn, None))).
Proof.
  intros Heq. apply Connect_from_returns in Heq. split; [|done].
  intros [[? ?] [? ?]]. destruct Heq as [[? _]|[? _]]; congruence.
Qed.

Lemma Connect_returns_witness :
  ¬ (is_Some (Some 7) ∧ is_Some (@None error)) ∧
  ((Some 7 = None ∧ is_Some (@None error)) ∨
   (@None error = None ∧
    ∃ i c, last [(0, okConnector 7)] = Some (i, c) ∧
           Connect_of c Background (t_call i) = (Some 7, None))).
Proof.
  apply (Connect_returns
           (quiet (Add "foo" (Some (okConnector 7)) NewBalancer)
              (fun i => i) (fun _ => Wait))
           Background 1 (Some 7) None [(0, okConnector 7)]).
  reflexivity.
Defined.

(** C8 as stated fails: with the connector of the test file, whose
    Connect returns nil and nil, Connect returns neither a connection
    nor an error. *)
Lemma Connect_neither_counterexample :
  Connect (quiet (Add "foo" (Some testConnector) NewBalancer)
             (fun i => i) (fun _ => Wait))
          Background 1
    = (Returned (None, None), [(0, testConnector)]) ∧
  ¬ (∀ cn err log,
       Connect (quiet (Add "foo" (Some testConnector) NewBalancer)
                  (fun i => i) (fun _ => Wait))
               Background 1
         = (Returned (cn, err), log) →
       (is_Some cn ∧ err = None) ∨ (cn = None ∧ is_Some err)).
Proof.
  split; [reflexivity|].
  intros H. destruct (H None None [(0, testConnector)] eq_refl)
    as [[[? [=]] _]|[_ [? [=]]]].
Qed.

(** ** A token that has already fired *)

(** One attempt under a token that has fired: whatever happens, the
    loop ends with this attempt. *)
Lemma Connect_from_fired w ctx cerr fuel i fr :
  Err ctx (t_next i) = Some cerr →
  Connect_from w ctx (S fuel) i fr =
    match randomConnector (seed_at w i) (balancer_at w i) with
    | (_, Some err) => (Returned (None, Some err), calls fr)
    | (None, None) => (Panicked, calls fr)
    | (Some c, None) =>
        (Returned
           match Connect_of c ctx (t_call i) with
           | (cn, None) => (cn, None)
           | (_, Some (PermanentError e)) => (None, Some e)
           | (_, Some e) => (None, Some e)
           end,
         calls fr ++ [(i, c)])
    end.
Proof.
  intros Hnext. rewrite Connect_from_step.
  destruct (randomConnector _ _) as [[c|] [e|]]; try reflexivity.
  cbv zeta.
  destruct (Connect_of c ctx (t_call i)) as [cn [e|]]; [|reflexivity].
  cbn [fst snd]. rewrite Hnext. destruct e; reflexivity.
Qed.

(** C3, amended: when the token has fired before Connect is called,
    Connect makes one attempt and does not wait or retry.  With an empty
    registry it returns ErrNoConnectors and no connector is invoked;
    otherwise the selected connector is invoked once, with the fired
    token, and Connect returns what that call returns: its connection
    if it succeeds, its own error if it fails with an ordinary error.
    The token's error comes back only if the connector returns it. *)
Theorem Connect_token_fired (w : World) (ctx : Context) (cerr : error)
    (fuel : nat) :
  Err ctx 0 = Some cerr →
  (Connect w ctx (S fuel)).1 ≠ Pending ∧
  length (Connect w ctx (S fuel)).2 ≤ 1 ∧
  (connectors (balancer_at w 0) = ∅ →
   Connect w ctx (S fuel) = (Returned (None, Some ErrNoConnectors), [])) ∧
  (∀ c, randomConnector (seed_at w 0) (balancer_at w 0) = (Some c, None) →
     (Connect w ctx (S fuel)).2 = [(0, c)] ∧
     (∀ cn, Connect_of c ctx (t_call 0) = (cn, None) →
        (Connect w ctx (S fuel)).1 = Returned (cn, None)) ∧
     (∀ cn e, Connect_of c ctx (t_call 0) = (cn, Some e) →
        is_permanent e = false →
        (Connect w ctx (S fuel)).1 = Returned (None, Some e))).
Proof.
  intros Hfired.
  assert (Err ctx (t_next 0) = Some cerr) as Hnext.
  { apply (Err_later ctx 0); [exact Hfired|lia]. }
  unfold Connect. rewrite (Connect_from_fired w ctx cerr fuel 0 _ Hnext).
  split; [|split; [|split]].
  - destruct (randomConnector _ _) as [[c|] [e|]]; discriminate.
  - destruct (randomConnector _ _) as [[c|] [e|]]; cbn; lia.
  - intros Hb. by rewrite (randomConnector_empty _ _ Hb).
  - intros c Hsel. rewrite Hsel. cbn [fst snd calls app].
    split; [reflexivity|]. split.
    + intros cn Hcall. by rewrite Hcall.
    + intros cn e Hcall Hperm. rewrite Hcall. by destruct e.
Qed.

Lemma Connect_token_fired_witness :
  (Connect (quiet (Add "err" (Some errConnector) NewBalancer)
              (fun i => i) (fun _ => Wait))
           (mkContext (Some 0) Canceled) 3).2 = [(0, errConnector)] ∧
  (Connect (quiet (Add "err" (Some errConnector) NewBalancer)
              (fun i => i) (fun _ => Wait))
           (mkContext (Some 0) Canceled) 3).1
    = Returned (None, Some (errors_New "err")).
Proof.
  destruct (Connect_token_fired
              (quiet (Add "err" (Some errConnector) NewBalancer)
                 (fun i => i) (fun _ => Wait))
              (mkContext (Some 0) Canceled) Canceled 2)
    as (_ & _ & _ & H).
  - reflexivity.
  - destruct (H errConnector) as (Hlog & _ & Hfail); [reflexivity|].
    split; [exact Hlog|].
    apply (Hfail None (errors_New "err")); reflexivity.
Defined.

(** C3 as stated fails, in both of its parts.  With the token already
    fired and the succeeding connector of the test file registered, the
    connector is invoked and Connect returns its result; with the
    failing connector of the test file registered, the connector is
    invoked and Connect returns the connector's error.  No amount of
    fuel makes Connect return the token's error in either case. *)
Lemma Connect_token_fired_counterexample :
  Err (mkContext (Some 0) Canceled) 0 = Some Canceled ∧
  Connect (quiet (Add "foo" (Some testConnector) NewBalancer)
             (fun i => i) (fun _ => Wait))
          (mkContext (Some 0) Canceled) 1
    = (Returned (None, None), [(0, testConnector)]) ∧
  Connect (quiet (Add "err" (Some errConnector) NewBalancer)
             (fun i => i) (fun _ => Wait))
          (mkContext (Some 0) Canceled) 1
    = (Returned (None, Some (errors_New "err")), [(0, errConnector)]) ∧
  ¬ (∃ fuel log,
       Connect (quiet (Add "foo" (Some testConnector) NewBalancer)
                  (fun i => i) (fun _ => Wait))
               (mkContext (Some 0) Canceled) fuel
         = (Returned (None, Some Canceled), log)) ∧
  ¬ (∃ fuel log,
       Connect (quiet (Add "err" (Some errConnector) NewBalancer)
                  (fun i => i) (fun _ => Wait))
               (mkContext (Some 0) Canceled) fuel
         = (Returned (None, Some Canceled), log)).
Proof.
  split_and!; [reflexivity..| |].
  - intros ([|fuel] & log & H); [discriminate H|].
    unfold Connect in H. rewrite Connect_from_step in H.
    vm_compute in H. discriminate H.
  - intros ([|fuel] & log & H); [discriminate H|].
    unfold Connect in H. rewrite Connect_from_step in H.
    vm_compute in H. discriminate H.
Qed.

(** ** A nil connector *)

(** C9, amended: Add takes the nil connector as it takes any other, the
    registry keeps it and lists its name; an attempt of Connect that
    selects it panics: Connect does not return, and no connector call
    is made by that attempt. *)
Theorem Add_nil_then_panic (b : Balancer) (name : string) (seed : nat) :
  connectors (Add name None b) !! name = Some None ∧
  name ∈ ConnectorNames seed (Add name None b) ∧
  ∀ w ctx fuel i fr,
    randomConnector (seed_at w i) (balancer_at w i) = (None, None) →
    Connect_from w ctx (S fuel) i fr = (Panicked, calls fr).
Proof.
  split_and!.
  - simpl. apply lookup_insert_eq.
  - apply elem_of_ConnectorNames. simpl. rewrite lookup_insert_eq. by eexists.
  - intros w ctx fuel i fr Hsel. by rewrite Connect_from_step, Hsel.
Qed.

Lemma Add_nil_then_panic_witness :
  Connect (quiet (Add "bar" None NewBalancer) (fun i => i) (fun _ => Wait))
          Background 1
    = (Panicked, []).
Proof.
  destruct (Add_nil_then_panic NewBalancer "bar" 0) as (_ & _ & H).
  apply (H (quiet (Add "bar" None NewBalancer) (fun i => i) (fun _ => Wait))
           Background 0 0 (mkFrame None [])).
  reflexivity.
Defined.

(** C9 as stated fails: with only the nil connector registered, Connect
    returns no error, whatever the fuel; it panics. *)
Lemma nil_connector_counterexample :
  connectors (Add "bar" None NewBalancer) !! "bar" = Some None ∧
  ¬ (∃ fuel err log,
       Connect (quiet (Add "bar" None NewBalancer)
                  (fun i => i) (fun _ => Wait))
               Background fuel
         = (Returned (None, Some err), log)).
Proof.
  split; [reflexivity|].
  intros ([|fuel] & err & log & H); [discriminate H|].
  unfold Connect in H. rewrite Connect_from_step in H.
  vm_compute in H. discriminate H.
Qed.

(** ** The variant that tries every connector once *)

(** On the empty registry the variant returns ErrNoConnectors without
    looking at the token. *)
Lemma Sequential_Connect_no_connectors seed b ctx :
  connectors b = ∅ →
  Sequential.Connect seed b ctx = (Returned (None, Some ErrNoConnectors), []).
Proof.
  intros Hb. unfold Sequential.Connect. cbv zeta.
  by rewrite randomConnectors_range, Hb, range_empty.
Qed.


(** ** More on the registry *)

(** Remove of a name that is not registered changes nothing; after
    Remove the name is gone, so a second Remove changes nothing
    either. *)
Theorem Remove_absent (b : Balancer) (name : string) :
  connectors b !! name = None → Remove name b = b.
Proof.
  intros Habsent. destruct b as [m]. unfold Remove. simpl in *.
  by rewrite delete_id.
Qed.

Lemma Remove_absent_witness :
  Remove "bar" (Add "foo" (Some testConnector) NewBalancer)
    = Add "foo" (Some testConnector) NewBalancer.
Proof.
  apply (Remove_absent (Add "foo" (Some testConnector) NewBalancer) "bar").
  reflexivity.
Defined.

Theorem Remove_idempotent (b : Balancer) (name : string) :
  connectors (Remove name b) !! name = None ∧
  Remove name (Remove name b) = Remove name b.
Proof.
  split.
  - simpl. apply lookup_delete_eq.
  - unfold Remove. simpl. by rewrite delete_delete_eq.
Qed.

(** Of two Adds of the same name only the second one counts. *)
Theorem Add_last_write_wins (b : Balancer) (name : string) (c1 c2 : Connector) :
  Add name c2 (Add name c1 b) = Add name c2 b.
Proof. unfold Add. simpl. by rewrite insert_insert_eq. Qed.

(** Operations on two different names can be swapped. *)
Theorem Add_Remove_commute (b : Balancer) (n1 n2 : string) (c1 c2 : Connector) :
  n1 ≠ n2 →
  Add n1 c1 (Add n2 c2 b) = Add n2 c2 (Add n1 c1 b) ∧
  Remove n1 (Add n2 c2 b) = Add n2 c2 (Remove n1 b) ∧
  Remove n1 (Remove n2 b) = Remove n2 (Remove n1 b).
Proof.
  intros Hne. unfold Add, Remove. simpl. split_and!.
  - by rewrite insert_insert_ne.
  - by rewrite delete_insert_ne.
  - by rewrite delete_delete.
Qed.

Lemma Add_Remove_commute_witness :
  Add "foo" (Some testConnector) (Add "bar" None NewBalancer)
    = Add "bar" None (Add "foo" (Some testConnector) NewBalancer) ∧
  Remove "foo" (Add "bar" None NewBalancer)
    = Add "bar" None (Remove "foo" NewBalancer).
Proof.
  destruct (Add_Remove_commute NewBalancer "foo" "bar"
              (Some testConnector) None) as (H1 & H2 & _).
  - discriminate.
  - split; [exact H1|exact H2].
Defined.

(** On one name, the later of Add and Remove decides: Remove hides an
    earlier Add, Add hides an earlier Remove. *)
Theorem Add_Remove_same_name (b : Balancer) (name : string) (c : Connector) :
  Remove name (Add name c b) = Remove name b ∧
  Add name c (Remove name b) = Add name c b.
Proof.
  unfold Add, Remove. simpl. split.
  - by rewrite delete_insert_eq.
  - by rewrite insert_delete_eq.
Qed.

(** The names after Add are the names before and the added one; the
    names after Remove are the names before without the removed one. *)
Theorem ConnectorNames_Add_Remove (b : Balancer) (name : string)
    (c : Connector) (s1 s2 : nat) (x : string) :
  (x ∈ ConnectorNames s2 (Add name c b) ↔ x = name ∨ x ∈ ConnectorNames s1 b) ∧
  (x ∈ ConnectorNames s2 (Remove name b) ↔ x ∈ ConnectorNames s1 b ∧ x ≠ name).
Proof.
  rewrite !elem_of_ConnectorNames. simpl.
  destruct (decide (name = x)) as [->|Hne].
  - rewrite lookup_insert_eq, lookup_delete_eq. split.
    + split; [by left|by eexists].
    + split; [by intros [? ?]|by intros [_ ?]].
  - rewrite lookup_insert_ne, lookup_delete_ne by done. split.
    + split; [by right|]. intros [->|?]; done.
    + split; [|by intros [? _]]. intros ?. split; [done|congruence].
Qed.

(** The list of names grows by one with Add of a new name and shrinks
    by one with Remove of a registered name. *)
Theorem ConnectorNames_length_Add_Remove (b : Balancer) (name : string)
    (c : Connector) (s1 s2 : nat) :
  (connectors b !! name = None →
   length (ConnectorNames s2 (Add name c b))
     = S (length (ConnectorNames s1 b))) ∧
  (is_Some (connectors b !! name) →
   S (length (ConnectorNames s2 (Remove name b)))
     = length (ConnectorNames s1 b)).
Proof.
  rewrite !length_ConnectorNames. simpl. split.
  - intros Habsent. by apply map_size_insert_None.
  - intros Hin. rewrite map_size_delete_Some by done.
    destruct Hin as [c' Hc'].
    assert (size (connectors b) ≠ 0); [|lia].
    apply map_size_non_empty_iff. intros Hempty.
    by rewrite Hempty, lookup_empty in Hc'.
Qed.

Lemma ConnectorNames_length_Add_Remove_witness :
  length (ConnectorNames 1 (Add "bar" None
                              (Add "foo" (Some testConnector) NewBalancer)))
    = S (length (ConnectorNames 0 (Add "foo" (Some testConnector) NewBalancer)))
  ∧
  S (length (ConnectorNames 1
               (Remove "foo" (Add "foo" (Some testConnector) NewBalancer))))
    = length (ConnectorNames 0 (Add "foo" (Some testConnector) NewBalancer)).
Proof.
  split.
  - apply (ConnectorNames_length_Add_Remove
             (Add "foo" (Some testConnector) NewBalancer) "bar" None 0 1).
    reflexivity.
  - apply (ConnectorNames_length_Add_Remove
             (Add "foo" (Some testConnector) NewBalancer) "foo" None 0 1).
    exists (Some testConnector). reflexivity.
Defined.

(** Two calls of ConnectorNames on the same registry return the same
    names, possibly in another order; the list is empty exactly for the
    empty registry. *)
Theorem ConnectorNames_order (b : Balancer) (s1 s2 : nat) :
  ConnectorNames s1 b ≡ₚ ConnectorNames s2 b ∧
  (ConnectorNames s1 b = [] ↔ connectors b = ∅).
Proof.
  split.
  - rewrite !ConnectorNames_range. by rewrite !range_Permutation.
  - rewrite ConnectorNames_range. split.
    + intros Hnil. apply fmap_nil_inv in Hnil. by eapply range_nil_inv.
    + intros ->. by rewrite range_empty.
Qed.

(** ** More on the selection *)

(** [randomConnector] fails exactly on the empty registry, and then
    with ErrNoConnectors and the nil connector; otherwise the error is
    nil and the connector is the one registered under some name. *)
Theorem randomConnector_spec (seed : nat) (b : Balancer) :
  (connectors b = ∅ ∧
   randomConnector seed b = (None, Some ErrNoConnectors)) ∨
  (connectors b ≠ ∅ ∧
   ∃ name c, connectors b !! name = Some c ∧
             randomConnector seed b = (c, None)).
Proof.
  destruct (randomConnector seed b) as [c [e|]] eqn:Hsel.
  - left. apply randomConnector_error in Hsel as Hb. destruct Hb as [-> Hb].
    split; [done|]. by rewrite <-Hsel, randomConnector_empty.
  - right. apply randomConnector_registered in Hsel as [name Hname].
    split; [|by eauto]. intros Hb. by rewrite Hb, lookup_empty in Hname.
Qed.

(** [randomConnectors] returns one connector per registered name: the
    connectors of the registry, each as often as it is registered. *)
Theorem randomConnectors_spec (seed : nat) (b : Balancer) :
  length (Sequential.randomConnectors seed b) = size (connectors b) ∧
  Sequential.randomConnectors seed b ≡ₚ (map_to_list (connectors b)).*2 ∧
  ∀ c, c ∈ Sequential.randomConnectors seed b ↔
       ∃ name, connectors b !! name = Some c.
Proof.
  rewrite randomConnectors_range. split_and!.
  - by rewrite length_fmap, range_length.
  - by rewrite range_Permutation.
  - intros c. rewrite list_elem_of_fmap. split.
    + intros [[name c'] [-> Hin]]. exists name. by apply elem_of_range in Hin.
    + intros [name Hname]. exists (name, c). split; [done|].
      by apply elem_of_range.
Qed.

(** ** More on Connect *)

(** The record of connector calls: one call per attempt, attempts in
    order, each to a connector registered when the attempt read the
    registry. *)
Lemma Connect_from_log w ctx fuel : ∀ i fr,
  ∃ new, (Connect_from w ctx fuel i fr).2 = calls fr ++ new ∧
         new.*1 = seq i (length new) ∧
         length new ≤ fuel ∧
         Forall (fun cl : call =>
                   ∃ name, connectors (balancer_at w cl.1) !! name
                           = Some (Some cl.2)) new.
Proof.
  induction fuel as [|fuel IH]; intros i fr.
  { exists []. rewrite app_nil_r. split_and!; [done|done|done|constructor]. }
  assert (∃ new, calls fr = calls fr ++ new ∧ new.*1 = seq i (length new) ∧
                 length new ≤ S fuel ∧
                 Forall (fun cl : call =>
                   ∃ name, connectors (balancer_at w cl.1) !! name
                           = Some (Some cl.2)) new) as Hnone.
  { exists []. rewrite app_nil_r. split_and!; [done|done|simpl; lia|constructor]. }
  rewrite Connect_from_step.
  destruct (randomConnector _ _) as [[c|] [e|]] eqn:Hsel; try exact Hnone.
  apply randomConnector_registered in Hsel. cbv zeta.
  assert (∃ new, calls fr ++ [(i, c)] = calls fr ++ new ∧
                 new.*1 = seq i (length new) ∧
                 length new ≤ S fuel ∧
                 Forall (fun cl : call =>
                   ∃ name, connectors (balancer_at w cl.1) !! name
                           = Some (Some cl.2)) new) as Hone.
  { exists [(i, c)]. split_and!; [done|done|simpl; lia|by repeat constructor]. }
  destruct (Connect_of c ctx (t_call i)) as [cn [e|]]; cbn [fst snd];
    [|exact Hone].
  destruct (IH (S i) (mkFrame cn (calls fr ++ [(i, c)])))
    as (new & Hnew & Hseq & Hlen & Hall). cbn [calls] in Hnew.
  assert (∃ new0, (Connect_from w ctx fuel (S i)
                     (mkFrame cn (calls fr ++ [(i, c)]))).2
                  = calls fr ++ new0 ∧
                  new0.*1 = seq i (length new0) ∧
                  length new0 ≤ S fuel ∧
                  Forall (fun cl : call =>
                    ∃ name, connectors (balancer_at w cl.1) !! name
                            = Some (Some cl.2)) new0) as Hrec.
  { exists ((i, c) :: new). rewrite Hnew, <-app_assoc. split_and!.
    - done.
    - change (i :: new.*1 = i :: seq (S i) (length new)). by rewrite Hseq.
    - simpl. lia.
    - by constructor. }
  destruct e; try exact Hone;
    destruct (Err ctx (t_next i)); try exact Hone;
    destruct (next_backoff w i); try exact Hone;
    destruct (Err ctx (t_wait i)); try exact Hone; exact Hrec.
Qed.

(** Connect calls one connector per attempt, in the order of the
    attempts, and only connectors that are registered at the time the
    attempt reads the registry: a connector that is not in the registry
    then is not called. *)
Theorem Connect_calls_registered (w : World) (ctx : Context) (fuel : nat) :
  (Connect w ctx fuel).2.*1 = seq 0 (length (Connect w ctx fuel).2) ∧
  length (Connect w ctx fuel).2 ≤ fuel ∧
  Forall (fun cl : call =>
            ∃ name, connectors (balancer_at w cl.1) !! name = Some (Some cl.2))
         (Connect w ctx fuel).2.
Proof.
  destruct (Connect_from_log w ctx fuel 0 (mkFrame None []))
    as (new & Hnew & Hseq & Hlen & Hall).
  unfold Connect. rewrite Hnew. simpl. done.
Qed.

(** Where an error returned by Connect comes from. *)
Lemma Connect_from_error w ctx fuel : ∀ i fr cn err log,
  Connect_from w ctx fuel i fr = (Returned (cn, Some err), log) →
  (err = ErrNoConnectors ∧ ∃ j, connectors (balancer_at w j) = ∅) ∨
  (∃ t, Err ctx t = Some err) ∨
  (∃ j c cn', last log = Some (j, c) ∧
     (Connect_of c ctx (t_call j) = (cn', Some err) ∨
      Connect_of c ctx (t_call j) = (cn', Some (PermanentError err)))).
Proof.
  induction fuel as [|fuel IH]; intros i fr cn err log; [done|].
  rewrite Connect_from_step.
  destruct (randomConnector _ _) as [[c|] [e|]] eqn:Hsel; try done.
  - apply randomConnector_error in Hsel as [-> Hb].
    intros [= <- <- <-]. left. split; [done|by exists i].
  - cbv zeta.
    destruct (Connect_of c ctx (t_call i)) as [cn' [e|]] eqn:Hcall;
      cbn [fst snd]; [|done].
    assert (∀ e', (e = e' ∨ e = PermanentError e') →
              (Returned (@None Conn, Some e'), calls fr ++ [(i, c)])
                = (Returned (cn, Some err), log) →
              (err = ErrNoConnectors ∧
               ∃ j, connectors (balancer_at w j) = ∅) ∨
              (∃ t, Err ctx t = Some err) ∨
              (∃ j c0 cn0, last log = Some (j, c0) ∧
                 (Connect_of c0 ctx (t_call j) = (cn0, Some err) ∨
                  Connect_of c0 ctx (t_call j)
                    = (cn0, Some (PermanentError err))))) as Hlast.
    { intros e' He' [= <- <- <-]. right; right. exists i, c, cn'.
      rewrite last_snoc. split; [done|].
      destruct He' as [->| ->]; [by left|by right]. }
    destruct e;
      try (apply Hlast; by right);
      (destruct (Err ctx (t_next i)); [apply Hlast; by left|]);
      (destruct (next_backoff w i); [|apply Hlast; by left]);
      (destruct (Err ctx (t_wait i)); [apply Hlast; by left|]);
      apply IH.
  - apply randomConnector_error in Hsel as [-> Hb].
    intros [= <- <- <-]. left. split; [done|by exists i].
Qed.

(** An error returned by Connect is one of three: ErrNoConnectors, and
    then the registry was empty at some attempt; the token's own error;
    or the error of the last connector call, as it is or taken out of
    its permanent wrapper. *)
Theorem Connect_error_origin (w : World) (ctx : Context) (fuel : nat)
    (cn : option Conn) (err : error) (log : list call) :
  Connect w ctx fuel = (Returned (cn, Some err), log) →
  (err = ErrNoConnectors ∧ ∃ j, connectors (balancer_at w j) = ∅) ∨
  (∃ t, Err ctx t = Some err) ∨
  (∃ j c cn', last log = Some (j, c) ∧
     (Connect_of c ctx (t_call j) = (cn', Some err) ∨
      Connect_of c ctx (t_call j) = (cn', Some (PermanentError err)))).
Proof. apply Connect_from_error. Qed.

(** Open cannot be cancelled: an error it returns is ErrNoConnectors
    from an empty registry or the error of the last connector call. *)
Theorem Open_error_origin (w : World) (name : string) (fuel : nat)
    (cn : option Conn) (err : error) (log : list call) :
  Open w name fuel = (Returned (cn, Some err), log) →
  (err = ErrNoConnectors ∧ ∃ j, connectors (balancer_at w j) = ∅) ∨
  (∃ j c cn', last log = Some (j, c) ∧
     (Connect_of c Background (t_call j) = (cn', Some err) ∨
      Connect_of c Background (t_call j) = (cn', Some (PermanentError err)))).
Proof.
  intros [H|[[t Ht]|H]]%Connect_from_error; [by left|done|by right].
Qed.

Lemma Connect_error_origin_witness :
  (errors_New "err" = ErrNoConnectors ∧
   ∃ j, connectors
          (balancer_at (quiet (Add "err" (Some errConnector) NewBalancer)
                          (fun i => i) (fun _ => Stop)) j) = ∅) ∨
  (∃ t, Err Background t = Some (errors_New "err")) ∨
  (∃ j c cn', last [(0, errConnector)] = Some (j, c) ∧
     (Connect_of c Background (t_call j) = (cn', Some (errors_New "err")) ∨
      Connect_of c Background (t_call j)
        = (cn', Some (PermanentError (errors_New "err"))))).
Proof.
  apply (Connect_error_origin
           (quiet (Add "err" (Some errConnector) NewBalancer)
              (fun i => i) (fun _ => Stop))
           Background 1 None (errors_New "err") [(0, errConnector)]).
  reflexivity.
Defined.

Lemma Open_error_origin_witness :
  (ErrNoConnectors = ErrNoConnectors ∧
   ∃ j, connectors
          (balancer_at (quiet NewBalancer (fun i => i) (fun _ => Wait)) j)
        = ∅) ∨
  (∃ j c cn', last [] = Some (j, c) ∧
     (Connect_of c Background (t_call j) = (cn', Some ErrNoConnectors) ∨
      Connect_of c Background (t_call j)
        = (cn', Some (PermanentError ErrNoConnectors)))).
Proof.
  apply (Open_error_origin
           (quiet NewBalancer (fun i => i) (fun _ => Wait))
           "ignored" 1 None ErrNoConnectors []).
  reflexivity.
Defined.

Section failing_prefix.
Variables (w : World) (ctx : Context) (k : nat).

(** Each of the first [k] attempts reaches a connector that fails with
    an ordinary error; the schedule grants a delay after it and the
    token has not fired when that delay is over. *)
Hypothesis prefix_fails : ∀ i, i < k → ∃ c cn e,
  randomConnector (seed_at w i) (balancer_at w i) = (Some c, None) ∧
  Connect_of c ctx (t_call i) = (cn, Some e) ∧
  is_permanent e = false.
Hypothesis prefix_waits : ∀ i, i < k → next_backoff w i = Wait.
Hypothesis prefix_not_fired : ∀ i, i < k → Err ctx (t_wait i) = None.

(** After these [k] attempts Connect is at attempt [k], having made
    [k] calls. *)
Lemma Connect_from_failures d : ∀ i fr fuel,
  i + d = k →
  ∃ fr', length (calls fr') = length (calls fr) + d ∧
         Connect_from w ctx (d + fuel) i fr = Connect_from w ctx fuel k fr'.
Proof using All.
  induction d as [|d IH]; intros i fr fuel Hi.
  - assert (i = k) as -> by lia. exists fr. split; [lia|done].
  - destruct (prefix_fails i) as (c & cn & e & Hsel & Hcall & Hperm); [lia|].
    pose proof (operation_call w ctx i fr c Hsel) as Ho.
    rewrite Hcall in Ho. cbn [fst snd] in Ho.
    change (S d + fuel) with (S (d + fuel)).
    rewrite (Connect_from_again _ _ _ _ _ _ _ Ho Hperm);
      [|apply prefix_not_fired; lia|apply prefix_waits; lia].
    destruct (IH (S i) (mkFrame cn (calls fr ++ [(i, c)])) fuel)
      as (fr' & Hlen & ->); [lia|].
    exists fr'. split; [|done]. rewrite Hlen. cbn [calls].
    rewrite length_app. simpl. lia.
Qed.
End failing_prefix.

(** Connect retries until a connector succeeds: when the first [k]
    attempts fail with ordinary errors (the schedule granting a delay
    each time, the token not fired) and attempt [k] reaches a connector
    whose call succeeds, Connect returns that call's connection with a
    nil error after [k + 1] calls, the last one to that connector. *)
Theorem Connect_first_success (w : World) (ctx : Context) (k : nat)
    (c : ConnectorImpl) (cn : option Conn) :
  (∀ i, i < k → ∃ c cn e,
     randomConnector (seed_at w i) (balancer_at w i) = (Some c, None) ∧
     Connect_of c ctx (t_call i) = (cn, Some e) ∧
     is_permanent e = false) →
  (∀ i, i < k → next_backoff w i = Wait) →
  (∀ i, i < k → Err ctx (t_wait i) = None) →
  randomConnector (seed_at w k) (balancer_at w k) = (Some c, None) →
  Connect_of c ctx (t_call k) = (cn, None) →
  ∀ fuel, k < fuel →
    ∃ log, Connect w ctx fuel = (Returned (cn, None), log) ∧
           length log = S k ∧ last log = Some (k, c).
Proof.
  intros Hfail Hwait Hctx Hsel Hcall fuel Hfuel.
  destruct (Connect_from_failures w ctx k Hfail Hwait Hctx k 0
              (mkFrame None []) (fuel - k)) as (fr & Hlen & Heq); [lia|].
  replace (k + (fuel - k)) with fuel in Heq by lia.
  unfold Connect. rewrite Heq.
  destruct (fuel - k) as [|fuel'] eqn:Hf; [lia|].
  rewrite Connect_from_step, Hsel. cbv zeta. rewrite Hcall. cbn [fst snd].
  eexists. split; [done|]. rewrite length_app, last_snoc, Hlen. simpl.
  split; [lia|done].
Qed.

Lemma Connect_first_success_witness :
  ∃ log,
    Connect (mkWorld
               (fun i => if i <? 2
                         then Add "err" (Some errConnector) NewBalancer
                         else Add "foo" (Some (okConnector 7)) NewBalancer)
               (fun i => i) (fun _ => Wait))
            Background 5
      = (Returned (Some 7, None), log) ∧
    length log = 3 ∧ last log = Some (2, okConnector 7).
Proof.
  apply (Connect_first_success
           (mkWorld
              (fun i => if i <? 2
                        then Add "err" (Some errConnector) NewBalancer
                        else Add "foo" (Some (okConnector 7)) NewBalancer)
              (fun i => i) (fun _ => Wait))
           Background 2 (okConnector 7) (Some 7)).
  - intros [|[|i]] Hi; [| |lia];
      exists errConnector, None, (errors_New "err");
      (split; [|split]); reflexivity.
  - reflexivity.
  - reflexivity.
  - reflexivity.
  - reflexivity.
  - lia.
Defined.

(** The registry is read again at every attempt: when the first [k]
    attempts fail as above and the registry is empty by the time of
    attempt [k], Connect returns ErrNoConnectors after the [k] calls
    already made. *)
Theorem Connect_registry_emptied (w : World) (ctx : Context) (k : nat) :
  (∀ i, i < k → ∃ c cn e,
     randomConnector (seed_at w i) (balancer_at w i) = (Some c, None) ∧
     Connect_of c ctx (t_call i) = (cn, Some e) ∧
     is_permanent e = false) →
  (∀ i, i < k → next_backoff w i = Wait) →
  (∀ i, i < k → Err ctx (t_wait i) = None) →
  connectors (balancer_at w k) = ∅ →
  ∀ fuel, k < fuel →
    ∃ log, Connect w ctx fuel = (Returned (None, Some ErrNoConnectors), log) ∧
           length log = k.
Proof.
  intros Hfail Hwait Hctx Hempty fuel Hfuel.
  destruct (Connect_from_failures w ctx k Hfail Hwait Hctx k 0
              (mkFrame None []) (fuel - k)) as (fr & Hlen & Heq); [lia|].
  replace (k + (fuel - k)) with fuel in Heq by lia.
  unfold Connect. rewrite Heq.
  destruct (fuel - k) as [|fuel'] eqn:Hf; [lia|].
  rewrite Connect_from_step, (randomConnector_empty _ _ Hempty).
  eexists. split; [done|]. rewrite Hlen. simpl. lia.
Qed.

Lemma Connect_registry_emptied_witness :
  ∃ log,
    Connect (mkWorld
               (fun i => if i <? 2
                         then Add "err" (Some errConnector) NewBalancer
                         else Remove "err"
                                (Add "err" (Some errConnector) NewBalancer))
               (fun i => i) (fun _ => Wait))
            Background 5
      = (Returned (None, Some ErrNoConnectors), log) ∧
    length log = 2.
Proof.
  apply (Connect_registry_emptied
           (mkWorld
              (fun i => if i <? 2
                        then Add "err" (Some errConnector) NewBalancer
                        else Remove "err"
                               (Add "err" (Some errConnector) NewBalancer))
              (fun i => i) (fun _ => Wait))
           Background 2).
  - intros [|[|i]] Hi; [| |lia];
      exists errConnector, None, (errors_New "err");
      (split; [|split]); reflexivity.
  - reflexivity.
  - reflexivity.
  - reflexivity.
  - lia.
Defined.

(** ** More on the variant that tries every connector once *)

Lemma Sequential_Connect_returns_witness :
  (Some 7 = None ∧ is_Some (@None error)) ∨
  (@None error = None ∧
   ∃ j c, last [(0, okConnector 7)] = Some (j, c) ∧
          Connect_of c Background j = (Some 7, None)).
Proof.
  apply (Sequential_Connect_returns 0
           (Add "foo" (Some (okConnector 7)) NewBalancer)
           Background (Some 7) None [(0, okConnector 7)]).
  reflexivity.
Defined.

Lemma Sequential_Connect_no_connectors_witness :
  Sequential.Connect 0 NewBalancer (mkContext (Some 0) Canceled)
    = (Returned (None, Some ErrNoConnectors), []).
Proof.
  apply (Sequential_Connect_no_connectors 0 NewBalancer
           (mkContext (Some 0) Canceled)).
  reflexivity.
Defined.


Lemma Sequential_try_each_log ctx (cs : list Connector) : ∀ j err log,
  ∃ new, (Sequential.try_each ctx cs j err log).2 = log ++ new ∧
         new.*1 = seq j (length new) ∧
         (Some <$> new.*2) `prefix_of` cs.
Proof.
  induction cs as [|c cs IH]; intros j err log; simpl.
  { exists []. rewrite app_nil_r. split_and!; [done|done|apply prefix_nil]. }
  assert (∃ new : list call, log = log ++ new ∧ new.*1 = seq j (length new) ∧
            (Some <$> new.*2) `prefix_of` c :: cs) as Hnone.
  { exists []. rewrite app_nil_r. split_and!; [done|done|apply prefix_nil]. }
  destruct (Err ctx j); [exact Hnone|].
  destruct c as [c|]; [|exact Hnone].
  destruct (Connect_of c ctx j) as [cn [e|]]; simpl.
  - destruct (IH (S j) (Some e) (log ++ [(j, c)])) as (new & -> & Hseq & Hpre).
    exists ((j, c) :: new). rewrite <-app_assoc. split_and!.
    + done.
    + change (j :: new.*1 = j :: seq (S j) (length new)). by rewrite Hseq.
    + change (Some c :: (Some <$> new.*2) `prefix_of` Some c :: cs).
      by apply prefix_cons.
  - exists [(j, c)]. split_and!; [done|done|].
    change (Some c :: [] `prefix_of` Some c :: cs).
    apply prefix_cons, prefix_nil.
Qed.

(** The variant walks its copy of the connectors from the front and
    calls each connector it reaches once: the connectors called are an
    initial part of what [randomConnectors] returned, so there are at
    most as many calls as registered names. *)
Theorem Sequential_Connect_calls (seed : nat) (b : Balancer) (ctx : Context) :
  (Sequential.Connect seed b ctx).2.*1
    = seq 0 (length (Sequential.Connect seed b ctx).2) ∧
  (Some <$> (Sequential.Connect seed b ctx).2.*2)
    `prefix_of` Sequential.randomConnectors seed b ∧
  length (Sequential.Connect seed b ctx).2 ≤ size (connectors b).
Proof.
  assert (length (Sequential.randomConnectors seed b) = size (connectors b))
    as Hsize by (by rewrite randomConnectors_range, length_fmap, range_length).
  unfold Sequential.Connect. cbv zeta.
  destruct (Sequential.randomConnectors seed b) as [|c cs] eqn:Hcs.
  { simpl. split_and!; [done|apply prefix_nil|lia]. }
  change (length (c :: cs) =? 0) with false. cbv iota.
  destruct (Sequential_try_each_log ctx (c :: cs) 0 None [])
    as (new & -> & Hseq & Hpre).
  rewrite app_nil_l. split_and!; [done|done|].
  apply prefix_length in Hpre. rewrite !length_fmap in Hpre.
  rewrite <-Hsize. exact Hpre.
Qed.

Lemma Sequential_try_each_succeeds ctx (c_ok : ConnectorImpl)
    (cs : list Connector) :
  (∀ t, Err ctx t = None) →
  (∀ t, (Connect_of c_ok ctx t).2 = None) →
  None ∉ cs → Some c_ok ∈ cs →
  ∀ j err log, ∃ cn log',
    Sequential.try_each ctx cs j err log = (Returned (cn, None), log').
Proof.
  intros Hctx Hok. induction cs as [|c cs IH]; intros Hnil Hin j err log.
  { by apply not_elem_of_nil in Hin. }
  simpl. rewrite Hctx.
  destruct c as [c|]; [|by destruct Hnil; left].
  destruct (Connect_of c ctx j) as [cn [e|]] eqn:Hcall; simpl; [|by eauto].
  apply IH.
  - intros ?. apply Hnil. by right.
  - apply elem_of_cons in Hin as [[= <-]|Hin]; [|done].
    specialize (Hok j). by rewrite Hcall in Hok.
Qed.

(** The variant finds a working connector if there is one: when the
    token does not fire, no registered connector is nil and some
    registered connector always succeeds, it returns a nil error,
    whatever the order in which the connectors come. *)
Theorem Sequential_Connect_succeeds (seed : nat) (b : Balancer)
    (ctx : Context) (name : string) (c_ok : ConnectorImpl) :
  (∀ t, Err ctx t = None) →
  (∀ name', connectors b !! name' ≠ Some None) →
  connectors b !! name = Some (Some c_ok) →
  (∀ t, (Connect_of c_ok ctx t).2 = None) →
  ∃ cn log, Sequential.Connect seed b ctx = (Returned (cn, None), log).
Proof.
  intros Hctx Hnil Hreg Hok. unfold Sequential.Connect. cbv zeta.
  assert (Some c_ok ∈ Sequential.randomConnectors seed b) as Hin.
  { rewrite randomConnectors_range. apply list_elem_of_fmap.
    exists (name, Some c_ok). split; [done|]. by apply elem_of_range. }
  assert (None ∉ Sequential.randomConnectors seed b) as Hnone.
  { rewrite randomConnectors_range. intros Hc.
    apply list_elem_of_fmap in Hc as [[name' c'] [Heq Hc]]. simpl in Heq.
    subst c'. apply elem_of_range in Hc. by apply (Hnil name'). }
  destruct (Sequential.randomConnectors seed b) as [|c cs] eqn:Hcs.
  { by apply not_elem_of_nil in Hin. }
  change (length (c :: cs) =? 0) with false. cbv iota.
  by apply (Sequential_try_each_succeeds ctx c_ok).
Qed.

Lemma Sequential_Connect_succeeds_witness :
  ∃ cn log,
    Sequential.Connect 1
      (Add "err" (Some errConnector)
         (Add "foo" (Some testConnector) NewBalancer))
      Background
    = (Returned (cn, None), log).
Proof.
  apply (Sequential_Connect_succeeds 1
           (Add "err" (Some errConnector)
              (Add "foo" (Some testConnector) NewBalancer))
           Background "foo" testConnector).
  - reflexivity.
  - intros name'.
    destruct (decide (name' = "err")) as [->|Herr]; [discriminate|].
    destruct (decide (name' = "foo")) as [->|Hfoo]; [discriminate|].
    simpl. rewrite lookup_insert_ne, lookup_insert_ne by done.
    by rewrite lookup_empty.
  - reflexivity.
  - reflexivity.
Defined.

Lemma Sequential_try_each_all_fail ctx (cs : list Connector) :
  (∀ t, Err ctx t = None) →
  (∀ c, c ∈ cs → ∃ c', c = Some c' ∧ ∀ t, is_Some (Connect_of c' ctx t).2) →
  ∀ j err log, ∃ err' log',
    Sequential.try_each ctx cs j err log = (Returned (None, err'), log') ∧
    length log' = length log + length cs ∧
    (cs ≠ [] → ∃ i c e, err' = Some e ∧ last log' = Some (i, c) ∧
                        (Connect_of c ctx i).2 = Some e).
Proof.
  intros Hctx. induction cs as [|c cs IH]; intros Hfail j err log.
  { exists err, log. simpl. split_and!; [done|lia|done]. }
  simpl. rewrite Hctx.
  destruct (Hfail c) as (c' & -> & Hc'); [by left|].
  destruct (Hc' j) as [e He].
  destruct (Connect_of c' ctx j) as [cn oe] eqn:Hcall. simpl in He. subst oe.
  simpl.
  destruct (IH (fun c0 Hc0 => Hfail c0 (list_elem_of_further _ _ _ Hc0))
              (S j) (Some e) (log ++ [(j, c')]))
    as (err' & log' & Heq & Hlen & Hlast).
  exists err', log'. split; [done|]. split.
  { rewrite Hlen, length_app. simpl. lia. }
  intros _. destruct cs as [|c2 cs].
  - simpl in Heq. injection Heq as <- <-.
    exists j, c', e. rewrite last_snoc, Hcall. done.
  - by apply Hlast.
Qed.

(** When every registered connector fails (the token not fired, no nil
    connector), the variant calls each of them once and returns the
    error of the last call. *)
Theorem Sequential_Connect_all_fail (seed : nat) (b : Balancer)
    (ctx : Context) :
  (∀ t, Err ctx t = None) →
  connectors b ≠ ∅ →
  (∀ name c, connectors b !! name = Some c →
     ∃ c', c = Some c' ∧ ∀ t, is_Some (Connect_of c' ctx t).2) →
  ∃ e log i c,
    Sequential.Connect seed b ctx = (Returned (None, Some e), log) ∧
    length log = size (connectors b) ∧
    last log = Some (i, c) ∧ (Connect_of c ctx i).2 = Some e.
Proof.
  intros Hctx Hne Hfail. unfold Sequential.Connect. cbv zeta.
  assert (length (Sequential.randomConnectors seed b) = size (connectors b))
    as Hsize by (by rewrite randomConnectors_range, length_fmap, range_length).
  assert (∀ c, c ∈ Sequential.randomConnectors seed b →
            ∃ c', c = Some c' ∧ ∀ t, is_Some (Connect_of c' ctx t).2) as Hall.
  { intros c. rewrite randomConnectors_range.
    intros [[name c0] [-> Hc]]%list_elem_of_fmap.
    apply elem_of_range in Hc. by apply (Hfail name). }
  destruct (Sequential.randomConnectors seed b) as [|c cs] eqn:Hcs.
  { simpl in Hsize. symmetry in Hsize.
    by apply map_size_empty_iff in Hsize. }
  change (length (c :: cs) =? 0) with false. cbv iota.
  destruct (Sequential_try_each_all_fail ctx (c :: cs) Hctx Hall 0 None [])
    as (err' & log' & Heq & Hlen & Hlast).
  destruct Hlast as (i & c1 & e & -> & Hl & He); [done|].
  exists e, log', i, c1. rewrite Heq, Hlen, <-Hsize. done.
Qed.

Lemma Sequential_Connect_all_fail_witness :
  ∃ e log i c,
    Sequential.Connect 0 (Add "err" (Some errConnector) NewBalancer) Background
      = (Returned (None, Some e), log) ∧
    length log = size (connectors (Add "err" (Some errConnector) NewBalancer)) ∧
    last log = Some (i, c) ∧ (Connect_of c Background i).2 = Some e.
Proof.
  apply (Sequential_Connect_all_fail 0
           (Add "err" (Some errConnector) NewBalancer) Background).
  - reflexivity.
  - discriminate.
  - intros name c.
    destruct (decide (name = "err")) as [->|Hne].
    + intros [= <-]. exists errConnector. split; [reflexivity|].
      intros t. by eexists.
    + simpl. rewrite lookup_insert_ne, lookup_empty by done. discriminate.
Defined.

(** Open of the variant cannot be cancelled: with no nil connector and
    one connector that always succeeds in the registry, it returns a
    nil error. *)
Theorem Sequential_Open_succeeds (seed : nat) (b : Balancer)
    (ignored name : string) (c_ok : ConnectorImpl) :
  (∀ name', connectors b !! name' ≠ Some None) →
  connectors b !! name = Some (Some c_ok) →
  (∀ t, (Connect_of c_ok Background t).2 = None) →
  ∃ cn log, Sequential.Open seed b ignored = (Returned (cn, None), log).
Proof.
  intros Hnil Hreg Hok. unfold Sequential.Open, Sequential.Connect. cbv zeta.
  assert (Some c_ok ∈ Sequential.randomConnectors seed b) as Hin.
  { rewrite randomConnectors_range. apply list_elem_of_fmap.
    exists (name, Some c_ok). split; [done|]. by apply elem_of_range. }
  assert (None ∉ Sequential.randomConnectors seed b) as Hnone.
  { rewrite randomConnectors_range. intros Hc.
    apply list_elem_of_fmap in Hc as [[name' c'] [Heq Hc]]. simpl in Heq.
    subst c'. apply elem_of_range in Hc. by apply (Hnil name'). }
  destruct (Sequential.randomConnectors seed b) as [|c cs] eqn:Hcs.
  { by apply not_elem_of_nil in Hin. }
  change (length (c :: cs) =? 0) with false. cbv iota.
  by apply (Sequential_try_each_succeeds Background c_ok).
Qed.

Lemma Sequential_Open_succeeds_witness :
  ∃ cn log,
    Sequential.Open 0 (Add "foo" (Some (okConnector 7)) NewBalancer) "db"
    = (Returned (cn, None), log).
Proof.
  apply (Sequential_Open_succeeds 0
           (Add "foo" (Some (okConnector 7)) NewBalancer)
           "db" "foo" (okConnector 7)).
  - intros name'.
    destruct (decide (name' = "foo")) as [->|Hfoo]; [discriminate|].
    simpl. by rewrite lookup_insert_ne, lookup_empty.
  - reflexivity.
  - reflexivity.
Defined.
